(** * The Node binding of tree-sitter-allium

    A shallow embedding of
    [packages/tree-sitter-allium/bindings/node/binding.cc]:

    - the fragment of the N-API object model the file uses (a heap of
      JavaScript objects, function objects and externals, property [Set]
      and [Get], [Function::New], [External::New]);
    - the external accessor [tree_sitter_allium], of which the file has the
      declaration only: a parameter acting on the state of the grammar
      engine;
    - the lambda registered under the name [language], and [Init]. *)

From stdpp Require Import gmap strings list.

Open Scope string_scope.
Open Scope list_scope.

(** ** The N-API object model *)

(** A native pointer: [TSLanguage *] after the [const_cast], the [data] of
    an external. The cast changes the static type only, never the address. *)
Definition addr := Z.

(** Identity of a heap-allocated JavaScript value. *)
Definition ref := nat.

(** JavaScript values as [napi_value] sees them. Strings are immutable
    primitives and carry their contents; objects, functions and externals
    are references, compared by identity. *)
Inductive value :=
| VUndefined
| VString (s : string)
| VObject (r : ref)
| VFunction (r : ref)
| VExternal (r : ref).

(** The native callbacks this binding defines. The file has exactly one,
    the capture-less lambda handed to [Napi::Function::New]. *)
Inductive callback :=
| language_lambda.

(** What a reference points to. *)
Inductive cell :=
| CObject (props : gmap string value)
| CFunction (cb : callback) (utf8name : string)
| CExternal (data : addr).

(** [Napi::CallbackInfo]: the receiver and the arguments of a call. *)
Record CallbackInfo := { info_this : value; info_args : list value }.

Inductive napi_status :=
| napi_object_expected
| napi_function_expected.

Inductive result (A : Type) :=
| Ok (a : A)
| Throw (e : napi_status).
Arguments Ok {A} a.
Arguments Throw {A} e.

Section Runtime.
(** State of the external grammar engine: whatever native memory the
    accessor may read or write, the grammar descriptor included. *)
Context {engine : Type}.

(** [Napi::Env]: the JavaScript heap, together with the native state the
    addon is linked against. *)
Record env := Env { heap : list cell; native : engine }.

(** Computations in an environment that may throw. *)
Definition Napi (A : Type) : Type := env → result (A * env).

#[global] Instance Napi_ret : MRet Napi := λ A a σ, Ok (a, σ).
#[global] Instance Napi_bind : MBind Napi := λ A B f m σ,
  match m σ with
  | Ok (a, σ') => f a σ'
  | Throw e => Throw e
  end.

(** Allocation of a new heap value; its reference was never in use. *)
Definition alloc (c : cell) : Napi ref := λ σ,
  Ok (length (heap σ), Env (heap σ ++ [c]) (native σ)).

(** [Napi::String::New(env, s)]. *)
Definition String_New (s : string) : Napi string := mret s.

(** [Napi::Object::Set(key, value)] on an ordinary object: defines or
    overwrites the property, in place. *)
Definition Object_Set (o : ref) (key : string) (v : value) : Napi unit := λ σ,
  match heap σ !! o with
  | Some (CObject props) =>
      Ok (tt, Env (<[o := CObject (<[key := v]> props)]> (heap σ)) (native σ))
  | _ => Throw napi_object_expected
  end.

(** [Napi::Object::Get(key)]: a read, the environment is not changed. *)
Definition Object_Get (o : ref) (key : string) : Napi value := λ σ,
  match heap σ !! o with
  | Some (CObject props) => Ok (default VUndefined (props !! key), σ)
  | _ => Throw napi_object_expected
  end.

(** [Napi::Function::New(env, cb, utf8name)]. *)
Definition Function_New (cb : callback) (utf8name : string) : Napi value :=
  r ← alloc (CFunction cb utf8name); mret (VFunction r).

(** [Napi::External<T>::New(env, data)]. *)
Definition External_New (data : addr) : Napi value :=
  r ← alloc (CExternal data); mret (VExternal r).

(** [Napi::External<T>::Data()]: the address an external wraps. *)
Definition External_Data (σ : env) (v : value) : option addr :=
  match v with
  | VExternal r =>
      match heap σ !! r with
      | Some (CExternal data) => Some data
      | _ => None
      end
  | _ => None
  end.

(** The property table of an object, when [o] is one. *)
Definition table (σ : env) (o : ref) : option (gmap string value) :=
  match heap σ !! o with
  | Some (CObject props) => Some props
  | _ => None
  end.

(** ** binding.cc *)

(** [extern "C" const TSLanguage *tree_sitter_allium();] *)
Variable tree_sitter_allium : engine → addr * engine.

Definition call_tree_sitter_allium : Napi addr := λ σ,
  let '(p, e) := tree_sitter_allium (native σ) in Ok (p, Env (heap σ) e).

(** The lambda of line 9:
    [return Napi::External<TSLanguage>::New(info.Env(),
              const_cast<TSLanguage*>(tree_sitter_allium()));] *)
Definition language (info : CallbackInfo) : Napi value :=
  p ← call_tree_sitter_allium; External_New p.

Definition run_callback (cb : callback) : CallbackInfo → Napi value :=
  match cb with
  | language_lambda => language
  end.

(** A call of a function value by the host. *)
Definition Function_Call (f : value) (info : CallbackInfo) : Napi value := λ σ,
  match f with
  | VFunction r =>
      match heap σ !! r with
      | Some (CFunction cb _) => run_callback cb info σ
      | _ => Throw napi_function_expected
      end
  | _ => Throw napi_function_expected
  end.

(** [Napi::Object Init(Napi::Env env, Napi::Object exports)] *)
Definition Init (exports : ref) : Napi ref :=
  k ← String_New "name";
  v ← String_New "allium";
  Object_Set exports k (VString v);;
  language ← Function_New language_lambda "language";
  k ← String_New "language";
  Object_Set exports k language;;
  mret exports.

(** Successive calls of one function value, the results in call order. *)
Fixpoint call_each (f : value) (infos : list CallbackInfo) : Napi (list value) :=
  match infos with
  | [] => mret []
  | info :: infos =>
      h ← Function_Call f info;
      hs ← call_each f infos;
      mret (h :: hs)
  end.

(** The operations a host performs on the addon, and their effect on the
    environment; an operation that throws leaves it as it was. *)
Inductive operation :=
| OpInit (exports : ref)
| OpCall (f : value) (info : CallbackInfo).

Definition perform (op : operation) (σ : env) : env :=
  match op with
  | OpInit exports =>
      match Init exports σ with
      | Ok (_, σ') => σ'
      | Throw _ => σ
      end
  | OpCall f info =>
      match Function_Call f info σ with
      | Ok (_, σ') => σ'
      | Throw _ => σ
      end
  end.

Definition perform_all (ops : list operation) (σ : env) : env :=
  foldl (λ σ op, perform op σ) σ ops.

End Runtime.

Arguments env : clear implicits.
Arguments Napi : clear implicits.

(** ** The grammar engine *)

Section Contract.
Context {engine descriptor_state : Type}.
Variable tree_sitter_allium : engine → addr * engine.

(** What the engine state says about the contents of the descriptor. *)
Variable descriptor : engine → descriptor_state.

(** Modelled from the spec: the accessor is defined by the generated
    parser, which the binding only declares. Its contract, section 6:
    "always returns the same address within a process". *)
Definition pointer_stable : Prop :=
  ∀ e, (tree_sitter_allium (tree_sitter_allium e).2).1 = (tree_sitter_allium e).1.

(** Modelled from the spec: same missing accessor, same contract:
    "returns a pointer-stable, immutable grammar descriptor; safe to call
    any number of times". *)
Definition descriptor_immutable : Prop :=
  ∀ e, descriptor (tree_sitter_allium e).2 = descriptor e.
End Contract.

(** Modelled from the spec: the grammar engine the binding is linked
    against is not among the sources. Section 3 has the descriptor as "an
    opaque, immutable, process-wide structure owned and allocated by the
    external grammar engine at its own static-initialization time": a fixed
    address and the words stored there. *)
Record static_engine := StaticEngine {
  descriptor_address : addr;
  descriptor_words : list Z
}.

(** Modelled from the spec: the accessor of that engine hands out the
    address of the static descriptor and touches nothing. *)
Definition static_accessor (e : static_engine) : addr * static_engine :=
  (descriptor_address e, e).

Definition sample_engine : static_engine :=
  StaticEngine 4096%Z [14; 0; 7]%Z.

(** The environment a module loader starts [Init] in: one empty exports
    object, at reference 0. *)
Definition fresh_module : env static_engine :=
  Env [CObject ∅] sample_engine.

(** An exports object that already has a property. *)
Definition used_module : env static_engine :=
  Env [CObject {["version" := VString "1"]}] sample_engine.

(** The table [Init] leaves behind, given the one it found and the
    reference of the function object it made. *)
Definition registered (props : gmap string value) (f : ref) : gmap string value :=
  <["language" := VFunction f]> (<["name" := VString "allium"]> props).

(** The module once loaded: what [Init] makes of [fresh_module]. *)
Definition loaded_module : env static_engine :=
  Env [CObject (registered ∅ 1); CFunction language_lambda "language"] sample_engine.

(** The loaded module after one call of its [language] function. *)
Definition called_module : env static_engine :=
  Env [CObject (registered ∅ 1); CFunction language_lambda "language";
       CExternal 4096%Z] sample_engine.

(** Two exports objects side by side, as when the addon is loaded into two
    contexts of one process. *)
Definition two_modules : env static_engine :=
  Env [CObject ∅; CObject {["version" := VString "1"]}] sample_engine.

Definition no_arguments : CallbackInfo :=
  {| info_this := VUndefined; info_args := [] |}.

Definition some_arguments : CallbackInfo :=
  {| info_this := VObject 0; info_args := [VString "x"; VUndefined] |}.

(** * Properties *)

Section Binding.
Context {engine : Type}.
Variable tree_sitter_allium : engine → addr * engine.

Implicit Types (σ : env engine) (props : gmap string value).

Lemma table_Some σ o props :
  table σ o = Some props ↔ heap σ !! o = Some (CObject props).
Proof.
  unfold table. destruct (heap σ !! o) as [[]|]; split; congruence.
Qed.

(** Symbolic execution of [Init] on an object. *)
Lemma Init_Ok σ exports props :
  table σ exports = Some props →
  Init exports σ =
    Ok (exports,
        Env (<[exports := CObject (registered props (length (heap σ)))]> (heap σ)
               ++ [CFunction language_lambda "language"])
            (native σ)).
Proof.
  intros Ht%table_Some.
  assert (exports < length (heap σ)) as Hlt by (by eapply lookup_lt_Some).
  unfold Init, String_New, Function_New, mbind, mret, Napi_bind, Napi_ret,
    alloc, Object_Set; simpl.
  rewrite Ht; simpl.
  rewrite length_insert.
  rewrite lookup_app_l by (by rewrite length_insert).
  rewrite list_lookup_insert_eq by done.
  rewrite insert_app_l by (by rewrite length_insert).
  by rewrite list_insert_insert_eq.
Qed.

(** Symbolic execution of the lambda. *)
Lemma language_Ok σ info :
  language tree_sitter_allium info σ =
    Ok (VExternal (length (heap σ)),
        Env (heap σ ++ [CExternal (tree_sitter_allium (native σ)).1])
            (tree_sitter_allium (native σ)).2).
Proof.
  unfold language, call_tree_sitter_allium, External_New, alloc,
    mbind, mret, Napi_bind, Napi_ret.
  by destruct (tree_sitter_allium (native σ)).
Qed.

Lemma Init_Throw σ exports :
  table σ exports = None →
  Init exports σ = Throw napi_object_expected.
Proof.
  unfold table, Init, String_New, mbind, mret, Napi_bind, Napi_ret, Object_Set.
  by destruct (heap σ !! exports) as [[]|].
Qed.

(** A call through a function object runs the lambda. *)
Lemma Function_Call_language σ r name info :
  heap σ !! r = Some (CFunction language_lambda name) →
  Function_Call tree_sitter_allium (VFunction r) info σ =
    language tree_sitter_allium info σ.
Proof. unfold Function_Call. by intros ->. Qed.

(** Whatever is called, the outcome is a throw that changes nothing or
    one run of the lambda. *)
Lemma Function_Call_cases f info σ :
  (∃ e, Function_Call tree_sitter_allium f info σ = Throw e) ∨
  Function_Call tree_sitter_allium f info σ = language tree_sitter_allium info σ.
Proof.
  unfold Function_Call.
  destruct f as [| | |r|]; eauto.
  destruct (heap σ !! r) as [[|[]|]|]; eauto.
Qed.

(** The table after [Init]: both entries, every other key as before. *)
Lemma registered_name props f :
  registered props f !! "name" = Some (VString "allium").
Proof. unfold registered. by simplify_map_eq. Qed.

Lemma registered_language props f :
  registered props f !! "language" = Some (VFunction f).
Proof. unfold registered. by simplify_map_eq. Qed.

Lemma registered_other props f k :
  k ≠ "name" → k ≠ "language" → registered props f !! k = props !! k.
Proof. intros. unfold registered. by rewrite !lookup_insert_ne. Qed.

Lemma registered_dom props f :
  dom (registered props f) = dom props ∪ {["name"; "language"]}.
Proof.
  unfold registered. rewrite !dom_insert_L.
  apply set_eq; intros k.
  rewrite !elem_of_union, !elem_of_singleton. tauto.
Qed.

(** Cells of the heap after [Init]. *)
Lemma Init_heap_exports (h : list cell) exports (c F : cell) :
  exports < length h → (<[exports := c]> h ++ [F]) !! exports = Some c.
Proof.
  intros. rewrite lookup_app_l by (by rewrite length_insert).
  by apply list_lookup_insert_eq.
Qed.

Lemma Init_heap_function (h : list cell) exports (c F : cell) :
  (<[exports := c]> h ++ [F]) !! length h = Some F.
Proof.
  rewrite lookup_app_r by (by rewrite length_insert).
  by rewrite length_insert, Nat.sub_diag.
Qed.

Lemma Init_heap_other (h : list cell) exports (c F : cell) r :
  r ≠ exports → r < length h → (<[exports := c]> h ++ [F]) !! r = h !! r.
Proof.
  intros. rewrite lookup_app_l by (by rewrite length_insert).
  by apply list_lookup_insert_ne.
Qed.

(** [Init] on an object, summarised for repeated use. *)
Lemma Init_summary σ exports props :
  table σ exports = Some props →
  ∃ σ',
    Init exports σ = Ok (exports, σ') ∧
    table σ' exports = Some (registered props (length (heap σ))) ∧
    heap σ' !! length (heap σ) = Some (CFunction language_lambda "language") ∧
    length (heap σ') = S (length (heap σ)).
Proof.
  intros Ht. pose proof (Init_Ok _ _ _ Ht) as HInit.
  apply table_Some, lookup_lt_Some in Ht.
  eexists. split; [exact HInit|]. simpl. repeat split.
  - apply table_Some; simpl. by apply Init_heap_exports.
  - apply Init_heap_function.
  - rewrite length_app, length_insert; simpl. lia.
Qed.

(** ** [Init] *)

(** C5. On every exports object, [Init] returns the reference it was
    given, so the very same object, whose table now has the two entries.
    Nothing else changes: the other keys of the table, every other value
    of the heap and the native state are as before; the one value added
    to the heap is the function object stored under [language]. *)
Theorem Init_returns_exports σ exports props :
  table σ exports = Some props →
  ∃ σ' props',
    Init exports σ = Ok (exports, σ') ∧
    table σ' exports = Some props' ∧
    props' !! "name" = Some (VString "allium") ∧
    props' !! "language" = Some (VFunction (length (heap σ))) ∧
    (∀ k, k ≠ "name" → k ≠ "language" → props' !! k = props !! k) ∧
    (∀ r, r ≠ exports → r < length (heap σ) → heap σ' !! r = heap σ !! r) ∧
    length (heap σ') = S (length (heap σ)) ∧
    heap σ' !! length (heap σ) = Some (CFunction language_lambda "language") ∧
    native σ' = native σ.
Proof.
  intros Ht. pose proof (Init_Ok _ _ _ Ht) as HInit.
  apply table_Some, lookup_lt_Some in Ht.
  eexists _, (registered props (length (heap σ))).
  split; [exact HInit|]. simpl.
  repeat split.
  - apply table_Some; simpl. by apply Init_heap_exports.
  - apply registered_name.
  - apply registered_language.
  - apply registered_other.
  - intros r Hne Hr. by apply Init_heap_other.
  - rewrite length_app, length_insert; simpl. lia.
  - apply Init_heap_function.
Qed.

(** C2, as amended. After [Init] the table has the keys it had before
    and the two keys [name] and [language], no other; [name] holds a
    string and [language] a function object running the lambda. On a
    table that was empty these two are all its keys. *)
Theorem Init_exports_keys σ exports props :
  table σ exports = Some props →
  ∃ σ' props',
    Init exports σ = Ok (exports, σ') ∧
    table σ' exports = Some props' ∧
    dom props' = dom props ∪ {["name"; "language"]} ∧
    (∃ s, props' !! "name" = Some (VString s)) ∧
    (∃ f, props' !! "language" = Some (VFunction f) ∧
          heap σ' !! f = Some (CFunction language_lambda "language")) ∧
    (props = ∅ → dom props' = {["name"; "language"]}).
Proof.
  intros Ht. pose proof (Init_Ok _ _ _ Ht) as HInit.
  apply table_Some, lookup_lt_Some in Ht.
  eexists _, (registered props (length (heap σ))).
  split; [exact HInit|]. simpl.
  split; [apply table_Some; simpl; by apply Init_heap_exports|].
  split; [apply registered_dom|].
  split; [eexists; apply registered_name|].
  split.
  - eexists. split; [apply registered_language|]. apply Init_heap_function.
  - intros ->. rewrite registered_dom, dom_empty_L. by rewrite (left_id_L ∅ (∪)).
Qed.

(** C3. [Init] run twice on one exports object: after the second run the
    table has the keys it had after the first, as many entries, the same
    [name], and under [language] a function object equal in content to
    the first one and answering every call as the first one does. It is
    a second function object, the first one being left on the heap. *)
Theorem Init_twice σ exports props :
  table σ exports = Some props →
  ∃ σ1 σ2 props1 props2 f1 f2,
    Init exports σ = Ok (exports, σ1) ∧
    table σ1 exports = Some props1 ∧
    Init exports σ1 = Ok (exports, σ2) ∧
    table σ2 exports = Some props2 ∧
    dom props2 = dom props1 ∧
    size props2 = size props1 ∧
    props1 !! "name" = Some (VString "allium") ∧
    props2 !! "name" = Some (VString "allium") ∧
    props1 !! "language" = Some (VFunction f1) ∧
    props2 !! "language" = Some (VFunction f2) ∧
    f2 ≠ f1 ∧
    (∀ k, k ≠ "language" → props2 !! k = props1 !! k) ∧
    heap σ1 !! f1 = Some (CFunction language_lambda "language") ∧
    heap σ2 !! f1 = Some (CFunction language_lambda "language") ∧
    heap σ2 !! f2 = Some (CFunction language_lambda "language") ∧
    (∀ info, Function_Call tree_sitter_allium (VFunction f2) info σ2 =
             Function_Call tree_sitter_allium (VFunction f1) info σ2).
Proof.
  intros Ht.
  destruct (Init_summary σ exports props Ht)
    as (σ1 & HInit1 & Ht1 & Hf1 & Hlen1).
  destruct (Init_summary σ1 exports _ Ht1)
    as (σ2 & HInit2 & Ht2 & Hf2 & Hlen2).
  assert (exports < length (heap σ)) as Hlt
      by (by eapply lookup_lt_Some, table_Some).
  assert (heap σ2 !! length (heap σ) = Some (CFunction language_lambda "language")) as Hf12.
  { rewrite (Init_Ok _ _ _ Ht1) in HInit2. injection HInit2 as <-. simpl.
    rewrite Init_heap_other; [done|lia|lia]. }
  set (props1 := registered props (length (heap σ))) in *.
  set (props2 := registered props1 (length (heap σ1))) in *.
  assert (dom props2 = dom props1) as Hdom.
  { unfold props2, props1. rewrite !registered_dom.
    apply set_eq; intros k. rewrite !elem_of_union, !elem_of_singleton. tauto. }
  exists σ1, σ2, props1, props2, (length (heap σ)), (length (heap σ1)).
  repeat split; try done.
  - by rewrite <-!size_dom, Hdom.
  - apply registered_name.
  - apply registered_name.
  - apply registered_language.
  - apply registered_language.
  - lia.
  - intros k Hk. unfold props2, registered at 1.
    rewrite lookup_insert_ne by done.
    destruct (decide (k = "name")) as [->|Hn].
    + rewrite lookup_insert_eq. symmetry. apply registered_name.
    + by rewrite lookup_insert_ne.
  - intros info. by rewrite !(Function_Call_language _ _ "language").
Qed.

(** ** The [language] factory *)

(** C6. A run of the lambda asks the accessor for the address and puts
    exactly that address in an external that did not exist before; the
    values already on the heap stay as they are, and the native state is
    the one the accessor left. The contents of the descriptor play no
    part: from equal heaps and equal addresses the lambda builds equal
    handles, whatever the engines hold. *)
Theorem language_wraps_accessor_address σ info :
  ∃ r σ',
    language tree_sitter_allium info σ = Ok (VExternal r, σ') ∧
    heap σ !! r = None ∧
    heap σ' !! r = Some (CExternal (tree_sitter_allium (native σ)).1) ∧
    External_Data σ' (VExternal r) = Some (tree_sitter_allium (native σ)).1 ∧
    (∀ r' c, heap σ !! r' = Some c → heap σ' !! r' = Some c) ∧
    length (heap σ') = S (length (heap σ)) ∧
    native σ' = (tree_sitter_allium (native σ)).2 ∧
    (∀ σ2 info2,
       heap σ2 = heap σ →
       (tree_sitter_allium (native σ2)).1 = (tree_sitter_allium (native σ)).1 →
       ∃ σ2', language tree_sitter_allium info2 σ2 = Ok (VExternal r, σ2') ∧
              heap σ2' = heap σ').
Proof.
  exists (length (heap σ)). eexists.
  split; [apply language_Ok|]. simpl.
  assert ((heap σ ++ [CExternal (tree_sitter_allium (native σ)).1]) !! length (heap σ)
          = Some (CExternal (tree_sitter_allium (native σ)).1)) as Hnew.
  { rewrite lookup_app_r by done. by rewrite Nat.sub_diag. }
  repeat split.
  - by apply lookup_ge_None.
  - exact Hnew.
  - unfold External_Data, ref; simpl. by rewrite Hnew.
  - intros r' c Hr'. by apply lookup_app_l_Some.
  - rewrite length_app; simpl. lia.
  - intros σ2 info2 Hheap Haddr. eexists.
    rewrite language_Ok, Hheap, Haddr. by split.
Qed.

(** C10. The lambda does not look at its [CallbackInfo]: run in one
    environment with two receivers and argument lists, it gives the same
    handle and the same environment; the handle wraps the address the
    accessor returns there. The same holds for a call through any
    function value. *)
Theorem language_ignores_arguments σ info1 info2 :
  language tree_sitter_allium info1 σ = language tree_sitter_allium info2 σ ∧
  (∃ h σ', language tree_sitter_allium info1 σ = Ok (h, σ') ∧
           External_Data σ' h = Some (tree_sitter_allium (native σ)).1) ∧
  (∀ f, Function_Call tree_sitter_allium f info1 σ =
        Function_Call tree_sitter_allium f info2 σ).
Proof.
  split; [by rewrite !language_Ok|]. split.
  - eexists _, _. split; [apply language_Ok|]. simpl.
    rewrite lookup_app_r by done. by rewrite Nat.sub_diag.
  - intros f. unfold Function_Call.
    destruct f as [| | |r|]; try done.
    destruct (heap σ !! r) as [[|[]|]|]; done.
Qed.

(** Successive calls of a function object that runs the lambda: all of
    them return, the heap only grows, and the engine has been through the
    accessor once per call. *)
Lemma call_each_Ok r name infos :
  ∀ σ,
    heap σ !! r = Some (CFunction language_lambda name) →
    ∃ hs σn,
      call_each tree_sitter_allium (VFunction r) infos σ = Ok (hs, σn) ∧
      length hs = length infos ∧
      heap σ `prefix_of` heap σn ∧
      native σn = Nat.iter (length infos) (λ e, (tree_sitter_allium e).2) (native σ).
Proof.
  induction infos as [|info infos IH]; intros σ Hr.
  - exists [], σ. by repeat split.
  - simpl. unfold mbind, Napi_bind at 1.
    rewrite (Function_Call_language _ _ _ _ Hr), language_Ok.
    set (σ' := Env _ _).
    destruct (IH σ') as (hs & σn & Hcall & Hlen & Hpre & Hnat).
    { simpl. by apply lookup_app_l_Some. }
    unfold mbind, Napi_bind at 1. rewrite Hcall.
    eexists _, _. split; [done|]. simpl. repeat split.
    + by rewrite Hlen.
    + etrans; [|exact Hpre]. by apply prefix_app_r.
    + rewrite Hnat. symmetry.
      exact (Nat.iter_succ_r (length infos) (λ e, (tree_sitter_allium e).2) (native σ)).
Qed.

Lemma Object_Get_table σ o props k :
  table σ o = Some props →
  Object_Get o k σ = Ok (default VUndefined (props !! k), σ).
Proof. intros Ht%table_Some. unfold Object_Get. by rewrite Ht. Qed.

(** With an accessor that keeps returning the same address, every handle
    of the run wraps the address the accessor gives at the start. *)
Lemma call_each_same_address r name infos :
  pointer_stable tree_sitter_allium →
  ∀ σ,
    heap σ !! r = Some (CFunction language_lambda name) →
    ∃ hs σn,
      call_each tree_sitter_allium (VFunction r) infos σ = Ok (hs, σn) ∧
      heap σ `prefix_of` heap σn ∧
      Forall (λ h, External_Data σn h = Some (tree_sitter_allium (native σ)).1) hs.
Proof.
  intros Hstable.
  induction infos as [|info infos IH]; intros σ Hr.
  - exists [], σ. by repeat split.
  - simpl. unfold mbind, Napi_bind at 1.
    rewrite (Function_Call_language _ _ _ _ Hr), language_Ok.
    set (a := (tree_sitter_allium (native σ)).1).
    set (σ' := Env _ _).
    destruct (IH σ') as (hs & σn & Hcall & Hpre & Hall).
    { simpl. by apply lookup_app_l_Some. }
    unfold mbind, Napi_bind at 1. rewrite Hcall.
    exists (VExternal (length (heap σ)) :: hs), σn.
    split; [done|]. split; [etrans; [|exact Hpre]; by apply prefix_app_r|].
    constructor.
    + assert (heap σ' !! length (heap σ) = Some (CExternal a)) as Hnew.
      { simpl. rewrite lookup_app_r by done. by rewrite Nat.sub_diag. }
      eapply prefix_lookup_Some in Hnew; [|exact Hpre].
      unfold External_Data, ref. by rewrite Hnew.
    + eapply Forall_impl; [exact Hall|].
      intros h Hh. simpl in Hh. by rewrite Hh, Hstable.
Qed.

(** C1. After [Init], any number of successive calls of the exported
    [language] function, with whatever arguments, all return, and every
    handle returned wraps one and the same address: the one the accessor
    [tree_sitter_allium] returns. The accessor is taken under its
    contract of always returning the same address. *)
Theorem language_identity_stable σ exports props infos :
  pointer_stable tree_sitter_allium →
  table σ exports = Some props →
  ∃ σ1 f hs σn,
    Init exports σ = Ok (exports, σ1) ∧
    Object_Get exports "language" σ1 = Ok (f, σ1) ∧
    call_each tree_sitter_allium f infos σ1 = Ok (hs, σn) ∧
    length hs = length infos ∧
    Forall (λ h, External_Data σn h = Some (tree_sitter_allium (native σ)).1) hs.
Proof.
  intros Hstable Ht.
  destruct (Init_summary σ exports props Ht) as (σ1 & HInit & Ht1 & Hf & _).
  assert (native σ1 = native σ) as Hnat.
  { rewrite (Init_Ok _ _ _ Ht) in HInit. by injection HInit as <-. }
  destruct (call_each_same_address _ _ infos Hstable σ1 Hf)
    as (hs & σn & Hcall & _ & Hall).
  destruct (call_each_Ok _ _ infos σ1 Hf) as (hs' & σn' & Hcall' & Hlen & _).
  rewrite Hcall in Hcall'. injection Hcall' as <- <-.
  exists σ1, (VFunction (length (heap σ))), hs, σn.
  split; [done|]. split.
  { rewrite (Object_Get_table _ _ _ _ Ht1). by rewrite registered_language. }
  split; [done|]. split; [done|]. by rewrite <-Hnat.
Qed.

(** ** Runs of operations *)

Lemma perform_all_cons op ops σ :
  perform_all tree_sitter_allium (op :: ops) σ
  = perform_all tree_sitter_allium ops (perform tree_sitter_allium op σ).
Proof. reflexivity. Qed.

(** The exports object keeps its [name] entry through every operation. *)
Lemma perform_keeps_name exports op σ props :
  table σ exports = Some props →
  props !! "name" = Some (VString "allium") →
  ∃ props', table (perform tree_sitter_allium op σ) exports = Some props' ∧
            props' !! "name" = Some (VString "allium").
Proof.
  intros Ht Hname.
  assert (exports < length (heap σ)) as Hlt
      by (by eapply lookup_lt_Some, table_Some).
  destruct op as [o|f info]; simpl.
  - destruct (table σ o) as [p|] eqn:Ho.
    + rewrite (Init_Ok _ _ _ Ho).
      destruct (decide (o = exports)) as [->|Hne].
      * eexists. split; [|apply registered_name].
        apply table_Some; simpl. by apply Init_heap_exports.
      * exists props. split; [|done].
        apply table_Some; simpl. rewrite Init_heap_other by done.
        by apply table_Some.
    + rewrite (Init_Throw _ _ Ho). eauto.
  - destruct (Function_Call_cases f info σ) as [[e ->]| ->]; [eauto|].
    rewrite language_Ok. exists props. split; [|done].
    apply table_Some; simpl. by apply lookup_app_l_Some, table_Some.
Qed.

Lemma perform_all_keeps_name exports ops :
  ∀ σ props,
    table σ exports = Some props →
    props !! "name" = Some (VString "allium") →
    ∃ props', table (perform_all tree_sitter_allium ops σ) exports = Some props' ∧
              props' !! "name" = Some (VString "allium").
Proof.
  induction ops as [|op ops IH]; intros σ props Ht Hname; [eauto|].
  rewrite perform_all_cons.
  destruct (perform_keeps_name exports op σ props Ht Hname) as (p & Hp & Hn).
  by apply (IH _ p).
Qed.

(** C4. Once [Init] has run, a read of [name] gives the string "allium"
    and changes nothing, after any run of operations: calls of the
    [language] function or of anything else, with any arguments, in any
    number and order, further runs of [Init] included. *)
Theorem name_constant σ exports props ops :
  table σ exports = Some props →
  ∃ σ1,
    Init exports σ = Ok (exports, σ1) ∧
    Object_Get exports "name" (perform_all tree_sitter_allium ops σ1)
      = Ok (VString "allium", perform_all tree_sitter_allium ops σ1).
Proof.
  intros Ht.
  destruct (Init_summary σ exports props Ht) as (σ1 & HInit & Ht1 & _).
  exists σ1. split; [done|].
  destruct (perform_all_keeps_name exports ops σ1 _ Ht1 (registered_name _ _))
    as (p & Hp & Hn).
  rewrite (Object_Get_table _ _ _ _ Hp). by rewrite Hn.
Qed.

(** What an operation does to the native state: [Init] nothing, a call
    at most the one call of the accessor the lambda makes. *)
Lemma perform_Init_native exports σ :
  native (perform tree_sitter_allium (OpInit exports) σ) = native σ.
Proof.
  simpl. destruct (table σ exports) as [p|] eqn:Ho.
  - by rewrite (Init_Ok _ _ _ Ho).
  - by rewrite (Init_Throw _ _ Ho).
Qed.

Lemma perform_Call_native f info σ :
  native (perform tree_sitter_allium (OpCall f info) σ) = native σ ∨
  native (perform tree_sitter_allium (OpCall f info) σ)
    = (tree_sitter_allium (native σ)).2.
Proof.
  simpl. destruct (Function_Call_cases f info σ) as [[e ->]| ->]; [by left|].
  rewrite language_Ok. by right.
Qed.

(** Over a run, the native state is the initial one put through the
    accessor, once for each call that ran the lambda. *)
Lemma perform_all_native ops :
  ∀ σ, ∃ n : nat, (n ≤ length ops)%nat ∧
            native (perform_all tree_sitter_allium ops σ)
            = Nat.iter n (λ e, (tree_sitter_allium e).2) (native σ).
Proof.
  induction ops as [|op ops IH]; intros σ.
  - exists 0. by split.
  - rewrite perform_all_cons.
    destruct (IH (perform tree_sitter_allium op σ)) as (n & Hn & Hnat).
    rewrite Hnat. simpl length.
    destruct op as [o|f info].
    + rewrite perform_Init_native. exists n. split; [lia|done].
    + destruct (perform_Call_native f info σ) as [-> | ->].
      * exists n. split; [lia|done].
      * exists (S n). split; [lia|]. by rewrite Nat.iter_succ_r.
Qed.

(** C8. No run of operations of the binding, [Init] on any object and
    calls of any function value with any arguments, changes the contents
    of the descriptor: the binding reaches the engine through the
    accessor only, and the accessor is taken under its contract of leaving
    the descriptor as it is. The cast of line 10 only turns the pointer
    into the [data] of the external; nothing is stored through it, and
    the native state after the run is the initial one put through the
    accessor some number of times, at most once per operation. *)
Theorem descriptor_unchanged {descriptor_state : Type}
    (descriptor : engine → descriptor_state) ops σ :
  descriptor_immutable tree_sitter_allium descriptor →
  descriptor (native (perform_all tree_sitter_allium ops σ)) = descriptor (native σ) ∧
  ∃ n : nat, (n ≤ length ops)%nat ∧
       native (perform_all tree_sitter_allium ops σ)
       = Nat.iter n (λ e, (tree_sitter_allium e).2) (native σ).
Proof.
  intros Himm.
  destruct (perform_all_native ops σ) as (n & Hn & Hnat).
  split; [|by exists n].
  rewrite Hnat. clear Hn Hnat.
  induction n as [|n IH]; [done|].
  simpl. by rewrite Himm.
Qed.

(** On an exports object nothing throws: [Init] returns, the function
    object it registered can be called, once or any number of times, and
    the lambda returns in every environment and for every [CallbackInfo].
    On a reference that is not an object [Init] throws, see [Init_Throw]. *)
Lemma operations_total σ exports props :
  table σ exports = Some props →
  ∃ σ1 f,
    Init exports σ = Ok (exports, σ1) ∧
    Object_Get exports "language" σ1 = Ok (f, σ1) ∧
    (∀ info, ∃ h σ2, Function_Call tree_sitter_allium f info σ1 = Ok (h, σ2)) ∧
    (∀ infos, ∃ hs σn,
       call_each tree_sitter_allium f infos σ1 = Ok (hs, σn) ∧
       length hs = length infos) ∧
    (∀ σ' info, ∃ h σ'', language tree_sitter_allium info σ' = Ok (h, σ'')).
Proof.
  intros Ht.
  destruct (Init_summary σ exports props Ht) as (σ1 & HInit & Ht1 & Hf & _).
  exists σ1, (VFunction (length (heap σ))).
  split; [done|]. split.
  { rewrite (Object_Get_table _ _ _ _ Ht1). by rewrite registered_language. }
  split; [|split].
  - intros info. rewrite (Function_Call_language _ _ _ _ Hf), language_Ok. eauto.
  - intros infos.
    destruct (call_each_Ok _ _ infos σ1 Hf) as (hs & σn & Hcall & Hlen & _).
    eauto.
  - intros σ' info. rewrite language_Ok. eauto.
Qed.

End Binding.

(** * Runs of calls and of operations *)

Section Runs.
Context {engine : Type}.
Variable tree_sitter_allium : engine → addr * engine.

Implicit Types (σ : env engine) (props : gmap string value).

(** The handles of successive calls are the externals at the next free
    references, in order; the heap grows by one value per call. *)
Lemma call_each_handles r name infos :
  ∀ σ,
    heap σ !! r = Some (CFunction language_lambda name) →
    ∃ σn,
      call_each tree_sitter_allium (VFunction r) infos σ
        = Ok (VExternal <$> seq (length (heap σ)) (length infos), σn) ∧
      heap σ `prefix_of` heap σn ∧
      length (heap σn) = length (heap σ) + length infos ∧
      Forall (λ r', ∃ a, heap σn !! r' = Some (CExternal a))
             (seq (length (heap σ)) (length infos)).
Proof.
  induction infos as [|info infos IH]; intros σ Hr.
  - exists σ. repeat split; [done|simpl; lia|constructor].
  - simpl call_each. unfold mbind, Napi_bind at 1.
    rewrite (Function_Call_language _ _ _ _ _ Hr), language_Ok.
    set (a := (tree_sitter_allium (native σ)).1).
    set (σ' := Env _ _).
    assert (length (heap σ') = S (length (heap σ))) as Hlen'
        by (simpl; rewrite length_app; simpl; lia).
    assert (heap σ' !! length (heap σ) = Some (CExternal a)) as Hnew.
    { simpl. rewrite lookup_app_r by done. by rewrite Nat.sub_diag. }
    destruct (IH σ') as (σn & Hcall & Hpre & Hlen & Hall).
    { simpl. by apply lookup_app_l_Some. }
    unfold mbind, Napi_bind at 1. rewrite Hcall, Hlen'.
    exists σn. split; [done|]. split; [|split].
    + etrans; [|exact Hpre]. by apply prefix_app_r.
    + rewrite Hlen, Hlen'. simpl. lia.
    + simpl. constructor.
      * exists a. by eapply prefix_lookup_Some.
      * by rewrite <-Hlen'.
Qed.

(** X1. Successive calls of a function object running the lambda return
    pairwise distinct handles: each is an external that was not on the
    heap before the run and is on it afterwards. *)
Theorem language_handles_distinct σ f name infos :
  heap σ !! f = Some (CFunction language_lambda name) →
  ∃ hs σn,
    call_each tree_sitter_allium (VFunction f) infos σ = Ok (hs, σn) ∧
    length hs = length infos ∧
    NoDup hs ∧
    Forall (λ h, ∃ r, h = VExternal r ∧ heap σ !! r = None ∧
                      is_Some (External_Data σn h)) hs.
Proof.
  intros Hf.
  destruct (call_each_handles f name infos σ Hf) as (σn & Hcall & _ & _ & Hall).
  eexists _, σn. split; [exact Hcall|]. split; [|split].
  - by rewrite length_fmap, length_seq.
  - assert (Inj (=) (=) VExternal) by (by intros ?? [=]).
    apply (NoDup_fmap_2 _), NoDup_seq.
  - apply Forall_fmap. rewrite Forall_forall in Hall. apply Forall_forall.
    intros r Hr. exists r. split; [done|]. split.
    + apply lookup_ge_None. apply elem_of_seq in Hr. lia.
    + destruct (Hall r Hr) as [a Ha]. exists a.
      unfold External_Data, ref. by rewrite Ha.
Qed.

(** X2. A run of calls leaves every value that was on the heap as it
    was, the table of every object included; the heap is longer by exactly
    one value per call, and none of the new values is an object. *)
Theorem language_calls_frame σ f name infos :
  heap σ !! f = Some (CFunction language_lambda name) →
  ∃ hs σn,
    call_each tree_sitter_allium (VFunction f) infos σ = Ok (hs, σn) ∧
    length (heap σn) = length (heap σ) + length infos ∧
    (∀ r c, heap σ !! r = Some c → heap σn !! r = Some c) ∧
    (∀ o, table σn o = table σ o).
Proof.
  intros Hf.
  destruct (call_each_handles f name infos σ Hf) as (σn & Hcall & Hpre & Hlen & Hall).
  eexists _, σn. split; [exact Hcall|]. split; [done|]. split.
  - intros r c Hr. by eapply prefix_lookup_Some.
  - intros o. unfold table, ref in *.
    destruct (heap σ !! o) as [c|] eqn:Ho.
    + by rewrite (prefix_lookup_Some _ _ _ _ Ho Hpre).
    + apply lookup_ge_None in Ho.
      destruct (decide (o < length (heap σn))) as [Hlt|Hge].
      * rewrite Forall_forall in Hall. destruct (Hall o) as [a Ha].
        { apply elem_of_seq. lia. }
        by rewrite Ha.
      * rewrite (proj2 (lookup_ge_None _ _)) by lia. done.
Qed.

(** X3. Loading does not reach the engine, calling does: [Init] leaves
    the native state alone, and the calls that follow put it through the
    accessor exactly once each. *)
Theorem accessor_called_once_per_call σ exports props infos :
  table σ exports = Some props →
  ∃ σ1 f hs σn,
    Init exports σ = Ok (exports, σ1) ∧
    native σ1 = native σ ∧
    Object_Get exports "language" σ1 = Ok (f, σ1) ∧
    call_each tree_sitter_allium f infos σ1 = Ok (hs, σn) ∧
    native σn = Nat.iter (length infos) (λ e, (tree_sitter_allium e).2) (native σ).
Proof.
  intros Ht.
  destruct (Init_summary σ exports props Ht) as (σ1 & HInit & Ht1 & Hf & _).
  assert (native σ1 = native σ) as Hnat.
  { rewrite (Init_Ok _ _ _ Ht) in HInit. by injection HInit as <-. }
  destruct (call_each_Ok tree_sitter_allium _ _ infos σ1 Hf)
    as (hs & σn & Hcall & _ & _ & Hiter).
  exists σ1, (VFunction (length (heap σ))), hs, σn.
  split; [done|]. split; [done|]. split.
  { rewrite (Object_Get_table _ _ _ _ Ht1). by rewrite registered_language. }
  split; [done|]. by rewrite Hiter, Hnat.
Qed.

(** One operation does one of three things: nothing (it threw), the two
    [Set]s and the allocation of [Init], or the allocation of the lambda. *)
Lemma perform_cases op σ :
  perform tree_sitter_allium op σ = σ ∨
  (∃ o p, table σ o = Some p ∧
          perform tree_sitter_allium op σ
          = Env (<[o := CObject (registered p (length (heap σ)))]> (heap σ)
                   ++ [CFunction language_lambda "language"])
                (native σ)) ∨
  perform tree_sitter_allium op σ
  = Env (heap σ ++ [CExternal (tree_sitter_allium (native σ)).1])
        (tree_sitter_allium (native σ)).2.
Proof.
  destruct op as [o|f info]; simpl.
  - destruct (table σ o) as [p|] eqn:Ho.
    + right; left. exists o, p. by rewrite (Init_Ok _ _ _ Ho).
    + left. by rewrite (Init_Throw _ _ Ho).
  - destruct (Function_Call_cases tree_sitter_allium f info σ) as [[e ->]| ->].
    + by left.
    + right; right. by rewrite language_Ok.
Qed.

(** Function objects and externals are never written to. *)
Lemma perform_keeps_cell op σ r c :
  heap σ !! r = Some c →
  (∀ p, c ≠ CObject p) →
  heap (perform tree_sitter_allium op σ) !! r = Some c.
Proof.
  intros Hr Hc.
  destruct (perform_cases op σ) as [-> | [(o & p & Ho & ->) | ->]]; simpl.
  - done.
  - apply table_Some in Ho.
    assert (r ≠ o) by (intros ->; unfold ref in *; rewrite Ho in Hr;
                       injection Hr as <-; by eapply Hc).
    rewrite Init_heap_other; [done|done|by eapply lookup_lt_Some].
  - by apply lookup_app_l_Some.
Qed.

Lemma perform_all_keeps_cell ops :
  ∀ σ r c,
    heap σ !! r = Some c →
    (∀ p, c ≠ CObject p) →
    heap (perform_all tree_sitter_allium ops σ) !! r = Some c.
Proof.
  induction ops as [|op ops IH]; intros σ r c Hr Hc; [done|].
  rewrite perform_all_cons. apply IH; [|done]. by apply perform_keeps_cell.
Qed.

(** An external is a reference to a cell holding an address. *)
Lemma External_Data_Some σ h a :
  External_Data σ h = Some a ↔ ∃ r : nat, h = VExternal r ∧ heap σ !! r = Some (CExternal a).
Proof.
  unfold External_Data, ref. split.
  - intros H. repeat case_match; simplify_eq. eauto.
  - intros (r & -> & Hr). by rewrite Hr.
Qed.

(** X4. A handle stays good: whatever the host does next, runs of
    [Init] and calls of any function value with any arguments, an external
    keeps wrapping the address it was made with. *)
Theorem handle_stays_valid σ h a ops :
  External_Data σ h = Some a →
  External_Data (perform_all tree_sitter_allium ops σ) h = Some a.
Proof.
  intros (r & -> & Hr)%External_Data_Some.
  apply External_Data_Some. exists r. split; [done|].
  by apply perform_all_keeps_cell.
Qed.

(** An object stays an object, loses no key, and has every key other
    than [name] and [language] as it was. *)
Lemma perform_keeps_table op σ o p :
  table σ o = Some p →
  ∃ p', table (perform tree_sitter_allium op σ) o = Some p' ∧
        dom p ⊆ dom p' ∧
        (∀ k, k ≠ "name" → k ≠ "language" → p' !! k = p !! k).
Proof.
  intros Ho.
  assert (o < length (heap σ)) as Hlt by (by eapply lookup_lt_Some, table_Some).
  destruct (perform_cases op σ) as [-> | [(o' & p0 & Ho' & ->) | ->]].
  - exists p. by rewrite Ho.
  - destruct (decide (o = o')) as [<-|Hne].
    + rewrite Ho in Ho'. injection Ho' as <-.
      exists (registered p (length (heap σ))). split; [|split].
      * apply table_Some; simpl. by apply Init_heap_exports.
      * rewrite registered_dom. apply union_subseteq_l.
      * apply registered_other.
    + exists p. split; [|done].
      apply table_Some; simpl. rewrite Init_heap_other by done.
      by apply table_Some.
  - exists p. split; [|done].
    apply table_Some; simpl. by apply lookup_app_l_Some, table_Some.
Qed.

(** X5. No run of operations takes a property away or turns an object
    into something else: an object is still an object afterwards, with at
    least the keys it had, and every key other than [name] and [language]
    holds what it held. *)
Theorem properties_kept σ o p ops :
  table σ o = Some p →
  ∃ p', table (perform_all tree_sitter_allium ops σ) o = Some p' ∧
        dom p ⊆ dom p' ∧
        (∀ k, k ≠ "name" → k ≠ "language" → p' !! k = p !! k).
Proof.
  revert σ p. induction ops as [|op ops IH]; intros σ p Ho.
  - by exists p.
  - rewrite perform_all_cons.
    destruct (perform_keeps_table op σ o p Ho) as (p1 & Ho1 & Hdom1 & Hk1).
    destruct (IH _ _ Ho1) as (p' & Ho' & Hdom' & Hk').
    exists p'. split; [done|]. split; [by etrans|].
    intros k Hn Hl. by rewrite Hk', Hk1.
Qed.

(** What one operation adds to the heap. *)
Lemma perform_new_cell op σ (r : nat) c :
  (length (heap σ) ≤ r)%nat →
  heap (perform tree_sitter_allium op σ) !! r = Some c →
  c = CFunction language_lambda "language" ∨
  c = CExternal (tree_sitter_allium (native σ)).1.
Proof.
  intros Hr.
  destruct (perform_cases op σ) as [-> | [(o & p & Ho & ->) | ->]]; simpl; intros Hc.
  - apply lookup_lt_Some in Hc. lia.
  - left. assert (r = length (heap σ)) as ->.
    { apply lookup_lt_Some in Hc.
      rewrite length_app, length_insert in Hc. simpl in Hc. lia. }
    rewrite Init_heap_function in Hc. by injection Hc.
  - right. assert (r = length (heap σ)) as ->.
    { apply lookup_lt_Some in Hc. rewrite length_app in Hc. simpl in Hc. lia. }
    rewrite lookup_app_r, Nat.sub_diag in Hc by done. by injection Hc.
Qed.

Lemma perform_address op σ :
  pointer_stable tree_sitter_allium →
  (tree_sitter_allium (native (perform tree_sitter_allium op σ))).1
  = (tree_sitter_allium (native σ)).1.
Proof.
  intros Hstable.
  destruct (perform_cases op σ) as [-> | [(o & p & Ho & ->) | ->]]; simpl;
    [done|done|apply Hstable].
Qed.

(** X6. Under an accessor that keeps returning one address, whatever a
    run of operations puts on the heap is a function object running the
    lambda or an external wrapping that address: no handle to anything but
    the descriptor is ever made, through whichever function object and in
    whatever order the host calls. *)
Theorem only_descriptor_handles σ ops (r : nat) c :
  pointer_stable tree_sitter_allium →
  (length (heap σ) ≤ r)%nat →
  heap (perform_all tree_sitter_allium ops σ) !! r = Some c →
  c = CFunction language_lambda "language" ∨
  c = CExternal (tree_sitter_allium (native σ)).1.
Proof.
  intros Hstable. revert σ.
  induction ops as [|op ops IH]; intros σ Hr Hc.
  - apply lookup_lt_Some in Hc. simpl in Hc. lia.
  - rewrite perform_all_cons in Hc.
    set (σ' := perform tree_sitter_allium op σ) in *.
    destruct (decide (length (heap σ') ≤ r)%nat) as [Hge|Hlt].
    + rewrite <-(perform_address op σ Hstable). by apply IH.
    + destruct (lookup_lt_is_Some_2 (heap σ') r) as [c' Hc']; [lia|].
      destruct (perform_new_cell op σ r c' Hr Hc') as [-> | ->].
      * rewrite (perform_all_keeps_cell ops σ' r _ Hc') in Hc by done.
        left. by injection Hc.
      * rewrite (perform_all_keeps_cell ops σ' r _ Hc') in Hc by done.
        right. by injection Hc.
Qed.

(** The [language] entry of an exports object, once a function object
    running the lambda, is one after every operation. *)
Lemma perform_keeps_language exports op σ p (f : nat) :
  table σ exports = Some p →
  p !! "language" = Some (VFunction f) →
  heap σ !! f = Some (CFunction language_lambda "language") →
  ∃ p' (f' : nat),
    table (perform tree_sitter_allium op σ) exports = Some p' ∧
    p' !! "language" = Some (VFunction f') ∧
    heap (perform tree_sitter_allium op σ) !! f'
      = Some (CFunction language_lambda "language").
Proof.
  intros Ht Hl Hf.
  assert (exports < length (heap σ)) as Hlt by (by eapply lookup_lt_Some, table_Some).
  pose proof (perform_keeps_cell op σ f _ Hf) as Hf'.
  destruct (perform_cases op σ) as [Heq | [(o & p0 & Ho & Heq) | Heq]];
    rewrite Heq in *; clear Heq.
  - exists p, f. by rewrite Ht.
  - destruct (decide (o = exports)) as [->|Hne].
    + exists (registered p0 (length (heap σ))), (length (heap σ)).
      split; [|split].
      * apply table_Some; simpl. by apply Init_heap_exports.
      * apply registered_language.
      * simpl. apply Init_heap_function.
    + exists p, f. split; [|split; [done|by apply Hf']].
      apply table_Some; simpl. rewrite Init_heap_other by done.
      by apply table_Some.
  - exists p, f. split; [|split; [done|by apply Hf']].
    apply table_Some; simpl. by apply lookup_app_l_Some, table_Some.
Qed.

Lemma perform_all_keeps_language exports ops :
  ∀ σ p (f : nat),
    table σ exports = Some p →
    p !! "language" = Some (VFunction f) →
    heap σ !! f = Some (CFunction language_lambda "language") →
    ∃ p' (f' : nat),
      table (perform_all tree_sitter_allium ops σ) exports = Some p' ∧
      p' !! "language" = Some (VFunction f') ∧
      heap (perform_all tree_sitter_allium ops σ) !! f'
        = Some (CFunction language_lambda "language").
Proof.
  induction ops as [|op ops IH]; intros σ p f Hp Hl Hf.
  - exists p, f. by repeat split.
  - rewrite perform_all_cons.
    destruct (perform_keeps_language exports op σ p f Hp Hl Hf)
      as (p' & f' & Hp' & Hl' & Hf').
    by apply (IH _ p' f').
Qed.

(** X8. Once [Init] has run, the [language] entry of the exports object
    is a working factory after any run of operations: a read gives a
    function object that runs the lambda, and a call of it returns a handle
    on the address the accessor gives at that moment. *)
Theorem language_export_stays σ exports props ops :
  table σ exports = Some props →
  ∃ σ1 (f : nat),
    Init exports σ = Ok (exports, σ1) ∧
    Object_Get exports "language" (perform_all tree_sitter_allium ops σ1)
      = Ok (VFunction f, perform_all tree_sitter_allium ops σ1) ∧
    heap (perform_all tree_sitter_allium ops σ1) !! f
      = Some (CFunction language_lambda "language") ∧
    ∀ info, ∃ h σ2,
      Function_Call tree_sitter_allium (VFunction f) info
        (perform_all tree_sitter_allium ops σ1) = Ok (h, σ2) ∧
      External_Data σ2 h
        = Some (tree_sitter_allium (native (perform_all tree_sitter_allium ops σ1))).1.
Proof.
  intros Ht.
  destruct (Init_summary σ exports props Ht) as (σ1 & HInit & Ht1 & Hf1 & _).
  exists σ1.
  destruct (perform_all_keeps_language exports ops σ1 _ _ Ht1
              (registered_language _ _) Hf1) as (p & f & Hp & Hl & Hf).
  exists f. split; [done|]. split; [|split; [done|]].
  - rewrite (Object_Get_table _ _ _ _ Hp). by rewrite Hl.
  - intros info. rewrite (Function_Call_language _ _ _ _ _ Hf), language_Ok.
    eexists _, _. split; [done|].
    apply External_Data_Some. eexists. split; [done|]. simpl.
    rewrite lookup_app_r by done. by rewrite Nat.sub_diag.
Qed.

(** [Init] writes to the exports object only. *)
Lemma Init_frame σ exports props σ' :
  table σ exports = Some props →
  Init exports σ = Ok (exports, σ') →
  ∀ r : nat, r ≠ exports → r < length (heap σ) → heap σ' !! r = heap σ !! r.
Proof.
  intros Ht HInit r Hne Hr.
  rewrite (Init_Ok _ _ _ Ht) in HInit. injection HInit as <-. simpl.
  by apply Init_heap_other.
Qed.

(** X9. Two exports objects are registered independently: [Init] on the
    one leaves the table of the other as it is, each gets a function object
    of its own, and the two function objects answer every call alike. *)
Theorem Init_separate_exports σ a b pa pb :
  a ≠ b →
  table σ a = Some pa →
  table σ b = Some pb →
  ∃ σ1 σ2 pa' pb' (fa fb : nat),
    Init a σ = Ok (a, σ1) ∧
    Init b σ1 = Ok (b, σ2) ∧
    table σ1 b = Some pb ∧
    table σ1 a = Some pa' ∧
    table σ2 a = Some pa' ∧
    table σ2 b = Some pb' ∧
    pa' !! "language" = Some (VFunction fa) ∧
    pb' !! "language" = Some (VFunction fb) ∧
    fa ≠ fb ∧
    (∀ info, Function_Call tree_sitter_allium (VFunction fa) info σ2 =
             Function_Call tree_sitter_allium (VFunction fb) info σ2 ∧
             ∃ h σ3, Function_Call tree_sitter_allium (VFunction fa) info σ2
                     = Ok (h, σ3)).
Proof.
  intros Hne Ha Hb.
  assert (a < length (heap σ)) as Hla by (by eapply lookup_lt_Some, table_Some).
  assert (b < length (heap σ)) as Hlb by (by eapply lookup_lt_Some, table_Some).
  destruct (Init_summary σ a pa Ha) as (σ1 & HInit1 & Ha1 & Hfa1 & Hlen1).
  pose proof (Init_frame σ a pa σ1 Ha HInit1) as Hframe1.
  assert (table σ1 b = Some pb) as Hb1.
  { apply table_Some. rewrite Hframe1 by done. by apply table_Some. }
  destruct (Init_summary σ1 b pb Hb1) as (σ2 & HInit2 & Hb2 & Hfb2 & Hlen2).
  pose proof (Init_frame σ1 b pb σ2 Hb1 HInit2) as Hframe2.
  assert (heap σ2 !! length (heap σ) = Some (CFunction language_lambda "language")) as Hfa2.
  { rewrite Hframe2; [done|lia|lia]. }
  exists σ1, σ2, (registered pa (length (heap σ))), (registered pb (length (heap σ1))),
    (length (heap σ)), (length (heap σ1)).
  split; [done|]. split; [done|]. split; [done|]. split; [done|]. split.
  { apply table_Some. rewrite Hframe2; [by apply table_Some|done|lia]. }
  split; [done|].
  split; [apply registered_language|]. split; [apply registered_language|].
  split; [lia|].
  intros info.
  rewrite !(Function_Call_language _ _ _ "language") by done.
  split; [done|]. rewrite language_Ok. eauto.
Qed.

End Runs.

(** * The binding on the static engine *)

Lemma static_accessor_stable : pointer_stable static_accessor.
Proof. by intros e. Qed.

Lemma static_accessor_immutable :
  descriptor_immutable static_accessor descriptor_words.
Proof. by intros e. Qed.

(** The module as loaded: [Init] on the empty exports object. *)
Example Init_fresh_module :
  Init 0 fresh_module =
    Ok (0, Env [CObject (registered ∅ 1); CFunction language_lambda "language"]
               sample_engine).
Proof. reflexivity. Qed.

(** Two calls of the registered function, without and with arguments. *)
Example language_called_twice :
  call_each static_accessor (VFunction 1) [no_arguments; some_arguments]
    (Env [CObject (registered ∅ 1); CFunction language_lambda "language"] sample_engine)
  = Ok ([VExternal 2; VExternal 3],
        Env [CObject (registered ∅ 1); CFunction language_lambda "language";
             CExternal 4096%Z; CExternal 4096%Z]
            sample_engine).
Proof. reflexivity. Qed.

(** A value that is not a function cannot be called. *)
Example call_of_a_string :
  Function_Call static_accessor (VString "language") no_arguments fresh_module
  = Throw napi_function_expected.
Proof. reflexivity. Qed.

(** [Init] on something that is not an object. *)
Example Init_on_a_function :
  Init 1 (Env [CObject ∅; CFunction language_lambda "language"] sample_engine)
  = Throw napi_object_expected.
Proof. reflexivity. Qed.

Lemma language_identity_stable_witness :
  pointer_stable static_accessor ∧
  table fresh_module 0 = Some ∅ ∧
  ∃ σ1 f hs σn,
    Init 0 fresh_module = Ok (0, σ1) ∧
    Object_Get 0 "language" σ1 = Ok (f, σ1) ∧
    call_each static_accessor f [no_arguments; some_arguments; no_arguments] σ1
      = Ok (hs, σn) ∧
    length hs = length [no_arguments; some_arguments; no_arguments] ∧
    Forall (λ h, External_Data σn h = Some (static_accessor (native fresh_module)).1) hs.
Proof.
  split; [exact static_accessor_stable|]. split; [reflexivity|].
  apply (language_identity_stable static_accessor fresh_module 0 ∅).
  - exact static_accessor_stable.
  - reflexivity.
Defined.

Lemma Init_exports_keys_witness :
  table fresh_module 0 = Some ∅ ∧
  ∃ σ' props',
    Init 0 fresh_module = Ok (0, σ') ∧
    table σ' 0 = Some props' ∧
    dom props' = dom (∅ : gmap string value) ∪ {["name"; "language"]} ∧
    (∃ s, props' !! "name" = Some (VString s)) ∧
    (∃ f, props' !! "language" = Some (VFunction f) ∧
          heap σ' !! f = Some (CFunction language_lambda "language")) ∧
    ((∅ : gmap string value) = ∅ → dom props' = {["name"; "language"]}).
Proof.
  split; [reflexivity|].
  apply (Init_exports_keys fresh_module 0 ∅). reflexivity.
Defined.

(** C2, as stated, fails on an exports object that has a property already:
    after [Init] its table has three keys. *)
Lemma Init_exports_keys_counterexample :
  table used_module 0 = Some {["version" := VString "1"]} ∧
  ∃ σ' props',
    Init 0 used_module = Ok (0, σ') ∧
    table σ' 0 = Some props' ∧
    props' !! "version" = Some (VString "1") ∧
    dom props' ≠ {["name"; "language"]}.
Proof.
  split; [reflexivity|].
  eexists _, _. split; [reflexivity|]. split; [reflexivity|].
  split; [reflexivity|].
  intros Hdom.
  assert ("version" ∈ ({["name"; "language"]} : gset string)) as Hin.
  { rewrite <-Hdom. apply elem_of_dom. by eexists. }
  apply elem_of_union in Hin as [Hin|Hin]; by apply elem_of_singleton in Hin.
Qed.

Lemma Init_twice_witness :
  table fresh_module 0 = Some ∅ ∧
  ∃ σ1 σ2 props1 props2 f1 f2,
    Init 0 fresh_module = Ok (0, σ1) ∧
    table σ1 0 = Some props1 ∧
    Init 0 σ1 = Ok (0, σ2) ∧
    table σ2 0 = Some props2 ∧
    dom props2 = dom props1 ∧
    size props2 = size props1 ∧
    props1 !! "name" = Some (VString "allium") ∧
    props2 !! "name" = Some (VString "allium") ∧
    props1 !! "language" = Some (VFunction f1) ∧
    props2 !! "language" = Some (VFunction f2) ∧
    f2 ≠ f1 ∧
    (∀ k, k ≠ "language" → props2 !! k = props1 !! k) ∧
    heap σ1 !! f1 = Some (CFunction language_lambda "language") ∧
    heap σ2 !! f1 = Some (CFunction language_lambda "language") ∧
    heap σ2 !! f2 = Some (CFunction language_lambda "language") ∧
    (∀ info, Function_Call static_accessor (VFunction f2) info σ2 =
             Function_Call static_accessor (VFunction f1) info σ2).
Proof.
  split; [reflexivity|].
  apply (Init_twice static_accessor fresh_module 0 ∅). reflexivity.
Defined.

Lemma name_constant_witness :
  table fresh_module 0 = Some ∅ ∧
  ∃ σ1,
    Init 0 fresh_module = Ok (0, σ1) ∧
    Object_Get 0 "name"
      (perform_all static_accessor
         [OpCall (VFunction 1) no_arguments; OpCall (VFunction 1) some_arguments;
          OpInit 0; OpCall (VFunction 4) no_arguments] σ1)
    = Ok (VString "allium",
          perform_all static_accessor
            [OpCall (VFunction 1) no_arguments; OpCall (VFunction 1) some_arguments;
             OpInit 0; OpCall (VFunction 4) no_arguments] σ1).
Proof.
  split; [reflexivity|].
  apply (name_constant static_accessor fresh_module 0 ∅). reflexivity.
Defined.

Lemma Init_returns_exports_witness :
  table used_module 0 = Some {["version" := VString "1"]} ∧
  ∃ σ' props',
    Init 0 used_module = Ok (0, σ') ∧
    table σ' 0 = Some props' ∧
    props' !! "name" = Some (VString "allium") ∧
    props' !! "language" = Some (VFunction (length (heap used_module))) ∧
    (∀ k, k ≠ "name" → k ≠ "language" →
          props' !! k = ({["version" := VString "1"]} : gmap string value) !! k) ∧
    (∀ r, r ≠ 0 → r < length (heap used_module) →
          heap σ' !! r = heap used_module !! r) ∧
    length (heap σ') = S (length (heap used_module)) ∧
    heap σ' !! length (heap used_module) = Some (CFunction language_lambda "language") ∧
    native σ' = native used_module.
Proof.
  split; [reflexivity|].
  apply (Init_returns_exports used_module 0 {["version" := VString "1"]}).
  reflexivity.
Defined.

Lemma descriptor_unchanged_witness :
  descriptor_immutable static_accessor descriptor_words ∧
  descriptor_words
    (native (perform_all static_accessor
               [OpInit 0; OpCall (VFunction 1) no_arguments;
                OpCall (VFunction 1) some_arguments] fresh_module))
  = descriptor_words (native fresh_module) ∧
  ∃ n : nat, (n ≤ length [OpInit 0; OpCall (VFunction 1) no_arguments;
                           OpCall (VFunction 1) some_arguments])%nat ∧
       native (perform_all static_accessor
                 [OpInit 0; OpCall (VFunction 1) no_arguments;
                  OpCall (VFunction 1) some_arguments] fresh_module)
       = Nat.iter n (λ e, (static_accessor e).2) (native fresh_module).
Proof.
  split; [exact static_accessor_immutable|].
  apply (descriptor_unchanged static_accessor descriptor_words).
  exact static_accessor_immutable.
Defined.

Lemma language_handles_distinct_witness :
  heap loaded_module !! 1 = Some (CFunction language_lambda "language") ∧
  ∃ hs σn,
    call_each static_accessor (VFunction 1)
      [no_arguments; some_arguments; no_arguments] loaded_module = Ok (hs, σn) ∧
    length hs = length [no_arguments; some_arguments; no_arguments] ∧
    NoDup hs ∧
    Forall (λ h, ∃ r, h = VExternal r ∧ heap loaded_module !! r = None ∧
                      is_Some (External_Data σn h)) hs.
Proof.
  split; [reflexivity|].
  apply (language_handles_distinct static_accessor loaded_module 1 "language").
  reflexivity.
Defined.

Lemma language_calls_frame_witness :
  heap loaded_module !! 1 = Some (CFunction language_lambda "language") ∧
  ∃ hs σn,
    call_each static_accessor (VFunction 1) [no_arguments; some_arguments] loaded_module
      = Ok (hs, σn) ∧
    length (heap σn) = length (heap loaded_module) + length [no_arguments; some_arguments] ∧
    (∀ r c, heap loaded_module !! r = Some c → heap σn !! r = Some c) ∧
    (∀ o, table σn o = table loaded_module o).
Proof.
  split; [reflexivity|].
  apply (language_calls_frame static_accessor loaded_module 1 "language").
  reflexivity.
Defined.

Lemma accessor_called_once_per_call_witness :
  table fresh_module 0 = Some ∅ ∧
  ∃ σ1 f hs σn,
    Init 0 fresh_module = Ok (0, σ1) ∧
    native σ1 = native fresh_module ∧
    Object_Get 0 "language" σ1 = Ok (f, σ1) ∧
    call_each static_accessor f [no_arguments; some_arguments] σ1 = Ok (hs, σn) ∧
    native σn = Nat.iter (length [no_arguments; some_arguments])
                  (λ e, (static_accessor e).2) (native fresh_module).
Proof.
  split; [reflexivity|].
  apply (accessor_called_once_per_call static_accessor fresh_module 0 ∅).
  reflexivity.
Defined.

Lemma handle_stays_valid_witness :
  External_Data called_module (VExternal 2) = Some 4096%Z ∧
  External_Data
    (perform_all static_accessor
       [OpInit 0; OpCall (VFunction 3) some_arguments; OpCall (VExternal 2) no_arguments]
       called_module)
    (VExternal 2) = Some 4096%Z.
Proof.
  split; [reflexivity|].
  apply (handle_stays_valid static_accessor called_module (VExternal 2) 4096%Z).
  reflexivity.
Defined.

Lemma properties_kept_witness :
  table used_module 0 = Some {["version" := VString "1"]} ∧
  ∃ p', table (perform_all static_accessor
                 [OpInit 0; OpCall (VFunction 1) no_arguments; OpInit 0] used_module) 0
        = Some p' ∧
        dom ({["version" := VString "1"]} : gmap string value) ⊆ dom p' ∧
        (∀ k, k ≠ "name" → k ≠ "language" →
              p' !! k = ({["version" := VString "1"]} : gmap string value) !! k).
Proof.
  split; [reflexivity|].
  apply (properties_kept static_accessor used_module 0 {["version" := VString "1"]}).
  reflexivity.
Defined.

Lemma only_descriptor_handles_witness :
  pointer_stable static_accessor ∧
  (length (heap loaded_module) ≤ 4)%nat ∧
  heap (perform_all static_accessor
          [OpCall (VFunction 1) no_arguments; OpInit 0;
           OpCall (VFunction 3) some_arguments] loaded_module) !! 4
  = Some (CExternal 4096%Z) ∧
  (CExternal 4096%Z = CFunction language_lambda "language" ∨
   CExternal 4096%Z = CExternal (static_accessor (native loaded_module)).1).
Proof.
  split; [exact static_accessor_stable|]. split; [simpl; lia|].
  split; [reflexivity|].
  apply (only_descriptor_handles static_accessor loaded_module
           [OpCall (VFunction 1) no_arguments; OpInit 0;
            OpCall (VFunction 3) some_arguments] 4 (CExternal 4096%Z)).
  - exact static_accessor_stable.
  - simpl; lia.
  - reflexivity.
Defined.

Lemma language_export_stays_witness :
  table fresh_module 0 = Some ∅ ∧
  ∃ σ1 (f : nat),
    Init 0 fresh_module = Ok (0, σ1) ∧
    Object_Get 0 "language"
      (perform_all static_accessor
         [OpCall (VFunction 1) no_arguments; OpInit 0; OpCall (VFunction 1) no_arguments] σ1)
      = Ok (VFunction f,
            perform_all static_accessor
              [OpCall (VFunction 1) no_arguments; OpInit 0;
               OpCall (VFunction 1) no_arguments] σ1) ∧
    heap (perform_all static_accessor
            [OpCall (VFunction 1) no_arguments; OpInit 0;
             OpCall (VFunction 1) no_arguments] σ1) !! f
      = Some (CFunction language_lambda "language") ∧
    ∀ info, ∃ h σ2,
      Function_Call static_accessor (VFunction f) info
        (perform_all static_accessor
           [OpCall (VFunction 1) no_arguments; OpInit 0;
            OpCall (VFunction 1) no_arguments] σ1) = Ok (h, σ2) ∧
      External_Data σ2 h
        = Some (static_accessor
                  (native (perform_all static_accessor
                             [OpCall (VFunction 1) no_arguments; OpInit 0;
                              OpCall (VFunction 1) no_arguments] σ1))).1.
Proof.
  split; [reflexivity|].
  apply (language_export_stays static_accessor fresh_module 0 ∅). reflexivity.
Defined.

Lemma Init_separate_exports_witness :
  0 ≠ 1 ∧
  table two_modules 0 = Some ∅ ∧
  table two_modules 1 = Some {["version" := VString "1"]} ∧
  ∃ σ1 σ2 pa' pb' (fa fb : nat),
    Init 0 two_modules = Ok (0, σ1) ∧
    Init 1 σ1 = Ok (1, σ2) ∧
    table σ1 1 = Some {["version" := VString "1"]} ∧
    table σ1 0 = Some pa' ∧
    table σ2 0 = Some pa' ∧
    table σ2 1 = Some pb' ∧
    pa' !! "language" = Some (VFunction fa) ∧
    pb' !! "language" = Some (VFunction fb) ∧
    fa ≠ fb ∧
    (∀ info, Function_Call static_accessor (VFunction fa) info σ2 =
             Function_Call static_accessor (VFunction fb) info σ2 ∧
             ∃ h σ3, Function_Call static_accessor (VFunction fa) info σ2
                     = Ok (h, σ3)).
Proof.
  split; [lia|]. split; [reflexivity|]. split; [reflexivity|].
  apply (Init_separate_exports static_accessor two_modules 0 1 ∅
           {["version" := VString "1"]}).
  - lia.
  - reflexivity.
  - reflexivity.
Defined.
